(** * The Director binding of motion-game (src/director.cpp)

    A shallow embedding of the scripting-language binding of
    [cocos2d::Director]: the cached singleton handle, the vector of retained
    scene references and the seventeen registered methods, followed by the
    properties of the retain/release bookkeeping. *)

From Stdlib Require Import ZArith Lia PrimFloat.
From Stdlib Require FloatOps SpecFloat.
From stdpp Require Import base list.

Local Open Scope Z_scope.

(** ** Values crossing the boundary *)

(** A [VALUE] is the scripting runtime's machine word for an object
    reference; native pointers are machine words too. *)
Abbreviation VALUE := Z (only parsing).
Abbreviation ptr := Z (only parsing).

(** A raised exception is an object of the scripting runtime. *)
Abbreviation exn := Z (only parsing).

(** [cocos2d::Vec2] and [cocos2d::Size]: two C floats each. *)
Definition Vec2 : Type := (float * float)%type.
Definition Size : Type := (float * float)%type.

(** The conversion of a C [double] to a C [float], which takes place where
    a [double] is passed for a [float] parameter: the value is rounded to
    the nearest single-precision number, ties to even, and stays a number
    that a [double] holds exactly.  What is too large becomes an infinity;
    zeros, infinities and NaN stay as they are. *)
Definition to_single (d : float) : float :=
  match FloatOps.Prim2SF d with
  | SpecFloat.S754_finite s m e =>
      FloatOps.SF2Prim (SpecFloat.binary_round 24 128 s m e)
  | _ => d
  end.

(** The native calls the binding forwards to, one constructor per member
    function of [cocos2d::Director] used in director.cpp. *)
Inductive engine_call : Type :=
| runWithScene (scene : ptr)
| replaceScene (scene : ptr)
| pushScene (scene : ptr)
| popScene
| engine_end
| engine_pause
| engine_resume
| startAnimation
| stopAnimation
| getVisibleOrigin
| getVisibleSize
| setDisplayStats (on : bool)
| isDisplayStats
| getContentScaleFactor
| setContentScaleFactor (scale : float)   (* the parameter is a C float *)
| getOpenGLView.

(** What the binding does to the world outside its two static variables,
    oldest first. *)
Inductive event : Type :=
| Retain (obj : VALUE)
| Release (obj : VALUE)
| ObjectNew (native : ptr) (klass : VALUE) (obj : VALUE)
| Engine (director : ptr) (c : engine_call).

(** Everything director.cpp takes from rubymotion.h, motion-game.h and the
    engine, none of which is part of the translated file.  The replies of the
    engine and of the object allocator may depend on what happened before, so
    they read the history of events. *)
Record runtime : Type := Runtime {
  Qnil : VALUE;
  Qtrue : VALUE;
  Qfalse : VALUE;
  RTEST : VALUE -> bool;
  NUM2DBL : VALUE -> exn + float;
  DBL2NUM : float -> VALUE;
  rb_cDirector : VALUE;
  rb_cGLView : VALUE;
  DIRECTOR : VALUE -> ptr;
  rb_any_to_scene : VALUE -> exn + ptr;
  rb_ccvec2_to_obj : Vec2 -> VALUE;
  rb_ccsize_to_obj : Size -> VALUE;
  rb_cocos2d_object_new_result : list event -> ptr -> VALUE -> VALUE;
  Director_getInstance : ptr;
  engine_raises : list event -> engine_call -> option exn;
  visible_origin : list event -> Vec2;
  visible_size : list event -> Size;
  display_stats : list event -> bool;
  content_scale_factor : list event -> float;
  opengl_view : list event -> ptr
}.

(** ** The binding's state *)

(** The two file-level statics of director.cpp, and the history of events. *)
Record world : Type := World {
  mc_director_instance : VALUE;
  director_using_scene : list VALUE;
  trace : list event
}.

(** [static VALUE mc_director_instance = Qnil;]
    [static std::vector<VALUE> director_using_scene(3);]  The vector's three
    elements are value-initialised, that is 0. *)
Definition initial_world (rt : runtime) : world :=
  World (Qnil rt) [0; 0; 0] [].

(** The part of the world that belongs to the binding itself. *)
Definition binding_state (w : world) : VALUE * list VALUE :=
  (mc_director_instance w, director_using_scene w).

(** ** A monad for the method bodies *)

(** A method body returns, is left by an exception raised below it, or
    accesses the vector outside its elements ([operator[]], [back] and
    [pop_back] of [std::vector] do not check, the behaviour is undefined). *)
Inductive outcome (A : Type) : Type :=
| Returned (a : A)
| Raised (e : exn)
| OutOfBounds.
Arguments Returned {A} a.
Arguments Raised {A} e.
Arguments OutOfBounds {A}.

Definition M (A : Type) : Type := world -> outcome A * world.

#[global] Instance M_ret : MRet M := fun A a w => (Returned a, w).

#[global] Instance M_bind : MBind M := fun A B k c w =>
  match c w with
  | (Returned a, w') => k a w'
  | (Raised e, w') => (Raised e, w')
  | (OutOfBounds, w') => (OutOfBounds, w')
  end.

Definition log (e : event) : M unit :=
  fun w => (Returned (), World (mc_director_instance w) (director_using_scene w)
                               (trace w ++ [e])).

Definition history : M (list event) := fun w => (Returned (trace w), w).

Definition raise {A : Type} (e : exn) : M A := fun w => (Raised e, w).

Definition undefined {A : Type} : M A := fun w => (OutOfBounds, w).

(** A coercion of the native layer either yields its result or raises. *)
Definition coerce {A : Type} (r : exn + A) : M A :=
  match r with
  | inl e => raise e
  | inr a => mret a
  end.

(** *** The static variables *)

Definition get_instance : M VALUE :=
  fun w => (Returned (mc_director_instance w), w).

Definition set_instance (v : VALUE) : M unit :=
  fun w => (Returned (), World v (director_using_scene w) (trace w)).

Definition get_vector : M (list VALUE) :=
  fun w => (Returned (director_using_scene w), w).

Definition set_vector (l : list VALUE) : M unit :=
  fun w => (Returned (), World (mc_director_instance w) l (trace w)).

(** *** [std::vector<VALUE>] *)

(** [director_using_scene[i]] read. *)
Definition vector_at (i : nat) : M VALUE :=
  l ← get_vector;
  match l !! i with
  | Some v => mret v
  | None => undefined
  end.

(** [director_using_scene[i] = v]. *)
Definition vector_set (i : nat) (v : VALUE) : M unit :=
  l ← get_vector;
  match l !! i with
  | Some _ => set_vector (<[i:=v]> l)
  | None => undefined
  end.

(** [director_using_scene.push_back(v)]. *)
Definition vector_push_back (v : VALUE) : M unit :=
  l ← get_vector;
  set_vector (l ++ [v]).

(** [director_using_scene.back()]. *)
Definition vector_back : M VALUE :=
  l ← get_vector;
  match last l with
  | Some v => mret v
  | None => undefined
  end.

(** [director_using_scene.pop_back()]. *)
Definition vector_pop_back : M unit :=
  l ← get_vector;
  match l with
  | [] => undefined
  | _ :: _ => set_vector (removelast l)
  end.

(** [director_using_scene.size()], the distance from [begin()] to [end()]. *)
Definition vector_size : M nat :=
  l ← get_vector;
  mret (length l).

(** ** The methods of director.cpp *)

Section Methods.

Variable rt : runtime.

(** Modelled from the spec: [rb_retain], declared in rubymotion.h and
    implemented by the scripting runtime, neither of which is in src/.  It
    takes one more strong reference to the object and gives the same reference
    back ("retains the new one", "appends a new retained reference"). *)
Definition rb_retain (obj : VALUE) : M VALUE :=
  log (Retain obj);;
  mret obj.

(** Modelled from the spec: [rb_release], the counterpart of [rb_retain]
    in rubymotion.h: it drops one strong reference to the object. *)
Definition rb_release (obj : VALUE) : M unit :=
  log (Release obj).

(** [rb_cocos2d_object_new(native, klass)] wraps a native object in a new
    object of the scripting runtime. *)
Definition rb_cocos2d_object_new (native : ptr) (klass : VALUE) : M VALUE :=
  h ← history;
  let obj := rb_cocos2d_object_new_result rt h native klass in
  log (ObjectNew native klass obj);;
  mret obj.

(** [DIRECTOR(rcv)->c(...)] for a member function that returns nothing the
    binding uses. *)
Definition forward (rcv : VALUE) (c : engine_call) : M unit :=
  h ← history;
  log (Engine (DIRECTOR rt rcv) c);;
  match engine_raises rt h c with
  | Some e => raise e
  | None => mret ()
  end.

(** [DIRECTOR(rcv)->c()] for a member function whose result the binding
    translates. *)
Definition query {A : Type} (rcv : VALUE) (c : engine_call)
    (reply : runtime -> list event -> A) : M A :=
  h ← history;
  forward rcv c;;
  mret (reply rt h).

(** [director_instance], registered as [shared].  The selector argument
    [sel] is used by no method and is left out throughout. *)
Definition director_instance (rcv : VALUE) : M VALUE :=
  cached ← get_instance;
  (if decide (cached = Qnil rt) then
     obj ← rb_cocos2d_object_new (Director_getInstance rt) (rb_cDirector rt);
     r ← rb_retain obj;
     set_instance r
   else mret ());;
  get_instance.

(** [director_run]: [director_using_scene[0] = rb_retain(obj);] then
    [runWithScene(rb_any_to_scene(obj))]. *)
Definition director_run (rcv obj : VALUE) : M VALUE :=
  r ← rb_retain obj;
  vector_set 0 r;;
  scene ← coerce (rb_any_to_scene rt obj);
  forward rcv (runWithScene scene);;
  mret rcv.

(** [director_replace]. *)
Definition director_replace (rcv obj : VALUE) : M VALUE :=
  old ← vector_at 0;
  rb_release old;;
  r ← rb_retain obj;
  vector_set 0 r;;
  scene ← coerce (rb_any_to_scene rt obj);
  forward rcv (replaceScene scene);;
  mret rcv.

(** [director_push]. *)
Definition director_push (rcv obj : VALUE) : M VALUE :=
  r ← rb_retain obj;
  vector_push_back r;;
  scene ← coerce (rb_any_to_scene rt obj);
  forward rcv (pushScene scene);;
  mret rcv.

(** [director_pop]. *)
Definition director_pop (rcv : VALUE) : M VALUE :=
  last_scene ← vector_back;
  vector_pop_back;;
  rb_release last_scene;;
  forward rcv popScene;;
  mret rcv.

(** The [for] loop of [director_end]: the iterator stands at index [i] and
    [n] elements are left before [end()]. *)
Fixpoint director_end_loop (n i : nat) : M unit :=
  match n with
  | O => mret ()
  | S n' =>
      v ← vector_at i;
      (if decide (v ≠ 0) then
         rb_release v;;
         vector_set i 0
       else mret ());;
      director_end_loop n' (S i)
  end.

(** [director_end]. *)
Definition director_end (rcv : VALUE) : M VALUE :=
  n ← vector_size;
  director_end_loop n 0;;
  forward rcv engine_end;;
  mret rcv.

Definition director_pause (rcv : VALUE) : M VALUE :=
  forward rcv engine_pause;;
  mret rcv.

Definition director_resume (rcv : VALUE) : M VALUE :=
  forward rcv engine_resume;;
  mret rcv.

Definition director_start_animation (rcv : VALUE) : M VALUE :=
  forward rcv startAnimation;;
  mret rcv.

Definition director_stop_animation (rcv : VALUE) : M VALUE :=
  forward rcv stopAnimation;;
  mret rcv.

Definition director_origin (rcv : VALUE) : M VALUE :=
  o ← query rcv getVisibleOrigin visible_origin;
  mret (rb_ccvec2_to_obj rt o).

Definition director_size (rcv : VALUE) : M VALUE :=
  s ← query rcv getVisibleSize visible_size;
  mret (rb_ccsize_to_obj rt s).

Definition director_show_stats_set (rcv val : VALUE) : M VALUE :=
  forward rcv (setDisplayStats (RTEST rt val));;
  mret val.

Definition director_show_stats (rcv : VALUE) : M VALUE :=
  b ← query rcv isDisplayStats display_stats;
  mret (if b : bool then Qtrue rt else Qfalse rt).

Definition director_content_scale_factor (rcv : VALUE) : M VALUE :=
  f ← query rcv getContentScaleFactor content_scale_factor;
  mret (DBL2NUM rt f).

(** [director_content_scale_factor_set]: [NUM2DBL] yields a [double], the
    engine's [setContentScaleFactor] takes a [float]. *)
Definition director_content_scale_factor_set (rcv scale : VALUE) : M VALUE :=
  d ← coerce (NUM2DBL rt scale);
  forward rcv (setContentScaleFactor (to_single d));;
  mret scale.

Definition director_glview (rcv : VALUE) : M VALUE :=
  glview ← query rcv getOpenGLView opengl_view;
  rb_cocos2d_object_new glview (rb_cGLView rt).

(** ** The method table of [Init_Director] *)

(** One constructor per [rb_define_method] line that is compiled on every
    platform, with the arguments the method takes. *)
Inductive method : Type :=
| shared
| run (scene : VALUE)
| replace (scene : VALUE)
| push (scene : VALUE)
| pop
| end_
| pause
| resume
| start_animation
| stop_animation
| origin
| size
| show_stats_set (value : VALUE)
| show_stats
| get_content_scale_factor
| set_content_scale_factor (value : VALUE)
| glview.

Definition call (rcv : VALUE) (m : method) : M VALUE :=
  match m with
  | shared => director_instance rcv
  | run scene => director_run rcv scene
  | replace scene => director_replace rcv scene
  | push scene => director_push rcv scene
  | pop => director_pop rcv
  | end_ => director_end rcv
  | pause => director_pause rcv
  | resume => director_resume rcv
  | start_animation => director_start_animation rcv
  | stop_animation => director_stop_animation rcv
  | origin => director_origin rcv
  | size => director_size rcv
  | show_stats_set v => director_show_stats_set rcv v
  | show_stats => director_show_stats rcv
  | get_content_scale_factor => director_content_scale_factor rcv
  | set_content_scale_factor v => director_content_scale_factor_set rcv v
  | glview => director_glview rcv
  end.

(** A script: the calls made one after the other.  A call left by an
    exception leaves the world as it was when the exception was raised and
    the script goes on (the script may rescue it); after an access outside
    the vector nothing is known any more. *)
Fixpoint exec (rcv : VALUE) (ops : list method) (w : world) : option world :=
  match ops with
  | [] => Some w
  | m :: ops' =>
      match call rcv m w with
      | (OutOfBounds, _) => None
      | (_, w') => exec rcv ops' w'
      end
  end.

End Methods.

(** ** Reading a history *)

(** The references retained, and the references released, in a stretch of
    history, in the order of the calls. *)
Definition retains (h : list event) : list VALUE :=
  omap (fun e => match e with Retain v => Some v | _ => None end) h.

Definition releases (h : list event) : list VALUE :=
  omap (fun e => match e with Release v => Some v | _ => None end) h.

(** The calls forwarded to the engine in a stretch of history. *)
Definition forwarded (h : list event) : list engine_call :=
  omap (fun e => match e with Engine _ c => Some c | _ => None end) h.

(** The references a list holds: its non-zero entries, first to last.  The
    loop of [director_end] takes 0 for a slot that holds nothing. *)
Definition held (l : list VALUE) : list VALUE :=
  filter (fun v => v ≠ 0) l.

(** The events of a call: what [call] appended to the history. *)
Definition events_of (w w' : world) : list event :=
  drop (length (trace w)) (trace w').

(** The forwarding a method ends with: the engine is called, and may raise. *)
Definition forwarding (rt : runtime) (rcv : VALUE) (c : engine_call)
    (w : world) : outcome VALUE * world :=
  (match engine_raises rt (trace w) c with
   | Some e => Raised e
   | None => Returned rcv
   end,
   World (mc_director_instance w) (director_using_scene w)
         (trace w ++ [Engine (DIRECTOR rt rcv) c])).

(** The same, after the coercion of the argument to a native scene. *)
Definition forwarding_scene (rt : runtime) (rcv obj : VALUE)
    (c : ptr -> engine_call) (w : world) : outcome VALUE * world :=
  match rb_any_to_scene rt obj with
  | inl e => (Raised e, w)
  | inr scene => forwarding rt rcv (c scene) w
  end.

(** The events of that forwarding: nothing if the coercion raises, else
    the call. *)
Definition forward_events (rt : runtime) (rcv obj : VALUE)
    (c : ptr -> engine_call) : list event :=
  match rb_any_to_scene rt obj with
  | inl _ => []
  | inr scene => [Engine (DIRECTOR rt rcv) (c scene)]
  end.

(** ** Scripts *)

(** How often a script calls [push], and how often [pop]. *)
Fixpoint pushes (ops : list method) : nat :=
  match ops with
  | [] => O
  | push _ :: ops' => S (pushes ops')
  | _ :: ops' => pushes ops'
  end.

Fixpoint pops (ops : list method) : nat :=
  match ops with
  | [] => O
  | pop :: ops' => S (pops ops')
  | _ :: ops' => pops ops'
  end.

(** The methods whose body is one forwarded call and the translation of
    its argument or result. *)
Definition stateless (m : method) : bool :=
  match m with
  | pause | resume | start_animation | stop_animation | origin | size
  | show_stats_set _ | show_stats
  | get_content_scale_factor | set_content_scale_factor _ | glview => true
  | shared | run _ | replace _ | push _ | pop | end_ => false
  end.

(** The methods that index the vector without a check. *)
Definition unchecked (m : method) : bool :=
  match m with
  | run _ | replace _ | pop => true
  | _ => false
  end.

(** What each method does to the vector, slot by slot: [run] and [replace]
    overwrite index 0, [push] and [pop] work at the end, [end] zeroes every
    slot in place, and no other method touches it. *)
Definition slots_after (m : method) (l : list VALUE) : list VALUE :=
  match m with
  | run scene | replace scene => <[O:=scene]> l
  | push scene => l ++ [scene]
  | pop => removelast l
  | end_ => replicate (length l) 0
  | _ => l
  end.




(** ** The engine's scene stack *)

(** Modelled from the spec: the scene stack of the native engine
    ([cocos2d::Director], a library that is not in src/), bottom first, as
    the method documentation of director.cpp and the spec describe it: [run]
    runs the given scene, [replace] replaces the running scene with a new
    one, [push] suspends the running scene and stacks the new one on it,
    [pop] removes the running scene and resumes the previous one, [end]
    ends the execution.  No other call changes the stack. *)
Definition engine_step (c : engine_call) (stack : list ptr) : list ptr :=
  match c with
  | runWithScene scene => stack ++ [scene]
  | replaceScene scene => removelast stack ++ [scene]
  | pushScene scene => stack ++ [scene]
  | popScene => removelast stack
  | engine_end => []
  | _ => stack
  end.

(** Modelled from the spec: the engine's scene stack after the calls
    forwarded in a history, starting with no scene. *)
Definition native_stack (h : list event) : list ptr :=
  fold_left (fun stack c => engine_step c stack) (forwarded h) [].

(** The retained list mirrors a scene stack when its non-zero entries, in
    order, wrap the scenes of the stack, in order. *)
Definition mirrors (rt : runtime) (l : list VALUE) (stack : list ptr) : Prop :=
  Forall2 (fun v scene => rb_any_to_scene rt v = inr scene) (held l) stack.

(** The use of the scene methods under which the vector follows the engine:
    scenes are not the null reference, [run] starts from a vector that holds
    nothing, [replace] is called while nothing is held above slot 0, and
    [pop] is called while the last slot holds a scene. *)
Definition in_discipline (w : world) (m : method) : Prop :=
  match m with
  | run scene => scene ≠ 0 ∧ held (director_using_scene w) = []
  | replace scene => scene ≠ 0 ∧ held (tail (director_using_scene w)) = []
  | push scene => scene ≠ 0
  | pop => ∃ x, last (director_using_scene w) = Some x ∧ x ≠ 0
  | _ => True
  end.

(** A script in which every call is in discipline and returns. *)
Fixpoint disciplined (rt : runtime) (rcv : VALUE) (ops : list method)
    (w : world) : Prop :=
  match ops with
  | [] => True
  | m :: ops' =>
      in_discipline w m ∧
      (∃ r, (call rt rcv m w).1 = Returned r) ∧
      disciplined rt rcv ops' (call rt rcv m w).2
  end.

(** ** A runtime to run examples in *)

(** Nothing raises; a reference wraps the native object of the same
    address; a new wrapper gets an address that depends on how much has
    happened; [nil] is 4, [true] is 2 and [false] is 0. *)
Definition plain_runtime : runtime := {|
  Qnil := 4;
  Qtrue := 2;
  Qfalse := 0;
  RTEST := fun v => negb (bool_decide (v = 0 ∨ v = 4));
  NUM2DBL := fun _ => inr PrimFloat.one;
  DBL2NUM := fun _ => 1000;
  rb_cDirector := 100;
  rb_cGLView := 200;
  DIRECTOR := fun rcv => rcv;
  rb_any_to_scene := fun v => inr v;
  rb_ccvec2_to_obj := fun _ => 2000;
  rb_ccsize_to_obj := fun _ => 3000;
  rb_cocos2d_object_new_result :=
    fun h _ _ => 8 * (Z.of_nat (length h) + 1000);
  Director_getInstance := 64;
  engine_raises := fun _ _ => None;
  visible_origin := fun _ => (PrimFloat.zero, PrimFloat.zero);
  visible_size := fun _ => (PrimFloat.one, PrimFloat.one);
  display_stats := fun _ => false;
  content_scale_factor := fun _ => PrimFloat.one;
  opengl_view := fun _ => 72
|}.

(** A runtime in which things go wrong below the binding: the coercion to a
    scene refuses the references under 8, the coercion to a number refuses
    [nil], and the engine raises on [popScene]. *)
Definition strict_runtime : runtime := {|
  Qnil := 4;
  Qtrue := 2;
  Qfalse := 0;
  RTEST := fun v => negb (bool_decide (v = 0 ∨ v = 4));
  NUM2DBL := fun v => if bool_decide (v = 4) then inl 7001 else inr PrimFloat.one;
  DBL2NUM := fun _ => 1000;
  rb_cDirector := 100;
  rb_cGLView := 200;
  DIRECTOR := fun rcv => rcv;
  rb_any_to_scene := fun v => if bool_decide (8 ≤ v) then inr v else inl 7002;
  rb_ccvec2_to_obj := fun _ => 2000;
  rb_ccsize_to_obj := fun _ => 3000;
  rb_cocos2d_object_new_result :=
    fun h _ _ => 8 * (Z.of_nat (length h) + 1000);
  Director_getInstance := 64;
  engine_raises := fun _ c => match c with popScene => Some 7003 | _ => None end;
  visible_origin := fun _ => (PrimFloat.zero, PrimFloat.zero);
  visible_size := fun _ => (PrimFloat.one, PrimFloat.one);
  display_stats := fun _ => false;
  content_scale_factor := fun _ => PrimFloat.one;
  opengl_view := fun _ => 72
|}.

(** ** Reference counts and safety of scripts *)

(** The methods whose body calls [rb_retain], and those whose body calls
    [rb_release]. *)
Definition may_retain (m : method) : bool :=
  match m with
  | shared | run _ | replace _ | push _ => true
  | _ => false
  end.

Definition may_release (m : method) : bool :=
  match m with
  | replace _ | pop | end_ => true
  | _ => false
  end.

(** The length of the vector after a call that stayed inside it. *)
Definition length_after (m : method) (len : nat) : nat :=
  match m with
  | push _ => S len
  | pop => pred len
  | _ => len
  end.

(** Whether a script stays inside a vector of [len] entries, read off the
    names of the methods alone. *)
Fixpoint stays_inside (len : nat) (ops : list method) : bool :=
  match ops with
  | [] => true
  | m :: ops' =>
      negb (unchecked m && Nat.eqb len 0) &&
      stays_inside (length_after m len) ops'
  end.

(** A script that calls [run] only while slot 0 of the vector holds 0. *)
Fixpoint run_on_free_slot (rt : runtime) (rcv : VALUE) (ops : list method)
    (w : world) : Prop :=
  match ops with
  | [] => True
  | m :: ops' =>
      match m with
      | run _ => director_using_scene w !! O = Some 0
      | _ => True
      end ∧
      run_on_free_slot rt rcv ops' (call rt rcv m w).2
  end.

(** The handle the accessor has cached, if it has cached one. *)
Definition cached_handle (rt : runtime) (w : world) : list VALUE :=
  if decide (mc_director_instance w = Qnil rt) then []
  else [mc_director_instance w].

(** Retains and releases are in balance when the non-zero references
    retained so far are, as a multiset, the ones released so far together
    with the ones the vector holds and the cached handle. *)
Definition balanced (rt : runtime) (w : world) : Prop :=
  held (retains (trace w)) ≡ₚ
  held (releases (trace w)) ++ held (director_using_scene w) ++
  held (cached_handle rt w).

Ltac run_monad :=
  unfold mbind, M_bind, mret, M_ret, log, history, raise, undefined, coerce,
    get_instance, set_instance, get_vector, set_vector; simpl.



(** ** The model at work *)

(** A scene is run, a second one pushed and popped, and the director ended:
    slots 1 and 2 are never written, and [end] leaves three zeros. *)
Example script_run_push_pop_end :
  exec plain_runtime 1 [run 16; push 24; pop; end_]
    (initial_world plain_runtime)
  = Some (World 4 [0; 0; 0]
            [Retain 16; Engine 1 (runWithScene 16);
             Retain 24; Engine 1 (pushScene 24);
             Release 24; Engine 1 popScene;
             Release 16; Engine 1 engine_end]).
Proof. by vm_compute. Qed.

(** Passing a [double] for a [float] rounds it: 2^24 + 1 is no
    single-precision number, 1 is. *)
Example to_single_rounds :
  to_single 16777217%float = 16777216%float ∧ to_single 1%float = 1%float.
Proof. by vm_compute. Qed.

(** A value the coercion refuses has been retained and stored by the time
    the coercion raises. *)
Example run_refused_scene :
  director_run strict_runtime 1 5 (initial_world strict_runtime)
  = (Raised 7002, World 4 [5; 0; 0] [Retain 5]).
Proof. by vm_compute. Qed.

(** [replace] after [push] overwrites slot 0, not the entry pushed last. *)
Example replace_after_push :
  exec plain_runtime 1 [run 16; push 24; replace 32]
    (initial_world plain_runtime)
  = Some (World 4 [32; 0; 0; 24]
            [Retain 16; Engine 1 (runWithScene 16);
             Retain 24; Engine 1 (pushScene 24);
             Release 16; Retain 32; Engine 1 (replaceScene 32)]).
Proof. by vm_compute. Qed.

Section Effects.

Variable rt : runtime.
Implicit Types (w : world) (rcv obj v : VALUE) (l : list VALUE).

Lemma forward_ret_eq {A : Type} rcv c w (r : A) :
  (forward rt rcv c;; mret r) w =
  (match engine_raises rt (trace w) c return outcome A with
   | Some e => Raised e
   | None => Returned r
   end, snd (forwarding rt rcv c w)).
Proof.
  unfold forward, forwarding. run_monad.
  destruct (engine_raises rt (trace w) c); reflexivity.
Qed.

Lemma director_push_eq rcv obj w :
  director_push rt rcv obj w =
  forwarding_scene rt rcv obj pushScene
    (World (mc_director_instance w) (director_using_scene w ++ [obj])
           (trace w ++ [Retain obj])).
Proof.
  unfold director_push, forwarding_scene, rb_retain, vector_push_back.
  run_monad.
  destruct (rb_any_to_scene rt obj) as [e|scene]; simpl; [reflexivity|].
  unfold forward, forwarding. run_monad.
  destruct (engine_raises rt _ _); reflexivity.
Qed.

(** [run] stores in slot 0 after the retain; on an empty vector the store
    is outside the vector. *)
Lemma director_run_eq rcv obj w :
  director_run rt rcv obj w =
  match director_using_scene w with
  | [] => (OutOfBounds,
           World (mc_director_instance w) [] (trace w ++ [Retain obj]))
  | _ :: rest =>
      forwarding_scene rt rcv obj runWithScene
        (World (mc_director_instance w) (obj :: rest)
               (trace w ++ [Retain obj]))
  end.
Proof.
  destruct w as [inst [|old rest] h];
    unfold director_run, forwarding_scene, rb_retain, vector_set;
    run_monad; [reflexivity|].
  destruct (rb_any_to_scene rt obj) as [e|scene]; simpl; [reflexivity|].
  unfold forward, forwarding. run_monad.
  destruct (engine_raises rt _ _); reflexivity.
Qed.

Lemma director_replace_eq rcv obj w :
  director_replace rt rcv obj w =
  match director_using_scene w with
  | [] => (OutOfBounds, w)
  | old :: rest =>
      forwarding_scene rt rcv obj replaceScene
        (World (mc_director_instance w) (obj :: rest)
               (trace w ++ [Release old; Retain obj]))
  end.
Proof.
  destruct w as [inst [|old rest] h];
    unfold director_replace, forwarding_scene, rb_retain, rb_release,
      vector_at, vector_set;
    run_monad; [reflexivity|].
  rewrite <- app_assoc; simpl.
  destruct (rb_any_to_scene rt obj) as [e|scene]; simpl; [reflexivity|].
  unfold forward, forwarding. run_monad.
  destruct (engine_raises rt _ _); reflexivity.
Qed.

Lemma director_pop_nil rcv w :
  director_using_scene w = [] → director_pop rt rcv w = (OutOfBounds, w).
Proof.
  destruct w as [inst l h]; simpl. intros ->.
  unfold director_pop, vector_back. by run_monad.
Qed.

Lemma director_pop_snoc rcv w l x :
  director_using_scene w = l ++ [x] →
  director_pop rt rcv w =
  forwarding rt rcv popScene
    (World (mc_director_instance w) l (trace w ++ [Release x])).
Proof.
  destruct w as [inst l0 h]; simpl. intros ->.
  unfold director_pop, vector_back, vector_pop_back, rb_release.
  run_monad. rewrite last_snoc. simpl.
  destruct (l ++ [x]) as [|y l'] eqn:E; [by destruct l|].
  rewrite <- E, removelast_last. simpl.
  unfold forward, forwarding. run_monad.
  destruct (engine_raises rt _ _); reflexivity.
Qed.

Lemma director_end_loop_eq n : ∀ pre rest inst h,
  length rest = n →
  director_end_loop n (length pre) (World inst (pre ++ rest) h) =
  (Returned (),
   World inst (pre ++ replicate n 0) (h ++ (Release <$> held rest))).
Proof.
  induction n as [|n IH]; intros pre rest inst h Hlen.
  - destruct rest; [|done]. simpl. by rewrite !app_nil_r.
  - destruct rest as [|v rest]; simplify_eq/=.
    unfold vector_at, vector_set, rb_release. run_monad.
    rewrite list_lookup_middle by done.
    unfold held. rewrite filter_cons.
    replace (S (length pre)) with (length (pre ++ [0])).
    2:{ rewrite length_app. simpl. lia. }
    repeat case_decide; try done; run_monad.
    + rewrite list_lookup_middle by done. simpl.
      rewrite insert_app_r_alt by done.
      replace (length pre - length pre)%nat with O by lia. simpl.
      replace (pre ++ 0 :: rest) with ((pre ++ [0]) ++ rest)
        by (by rewrite <- app_assoc).
      rewrite IH by done.
      rewrite <- !app_assoc. reflexivity.
    + assert (v = 0) as -> by lia.
      replace (pre ++ 0 :: rest) with ((pre ++ [0]) ++ rest)
        by (by rewrite <- app_assoc).
      rewrite IH by done.
      rewrite <- !app_assoc. reflexivity.
Qed.

Lemma director_end_eq rcv w :
  director_end rt rcv w =
  forwarding rt rcv engine_end
    (World (mc_director_instance w)
           (replicate (length (director_using_scene w)) 0)
           (trace w ++ (Release <$> held (director_using_scene w)))).
Proof.
  destruct w as [inst l h]. unfold director_end, vector_size.
  unfold mbind at 1 2, M_bind at 1 2. run_monad.
  change l with ([] ++ l) at 2. change O with (length (@nil VALUE)).
  rewrite director_end_loop_eq by done. simpl.
  apply forward_ret_eq.
Qed.

Lemma forwarding_scene_world rcv obj c w :
  (forwarding_scene rt rcv obj c w).2 =
  World (mc_director_instance w) (director_using_scene w)
        (trace w ++ forward_events rt rcv obj c).
Proof.
  unfold forwarding_scene, forward_events, forwarding.
  destruct (rb_any_to_scene rt obj); simpl; [|done].
  rewrite app_nil_r. by destruct w.
Qed.

Lemma forwarding_bounds rcv c w : (forwarding rt rcv c w).1 ≠ OutOfBounds.
Proof. unfold forwarding. simpl. by destruct (engine_raises rt _ _). Qed.

Lemma events_of_app inst l w evs :
  events_of w (World inst l (trace w ++ evs)) = evs.
Proof. unfold events_of. simpl. apply drop_app_length. Qed.

(** [shared] with the handle cached: nothing happens. *)
Lemma director_instance_cached rcv w :
  mc_director_instance w ≠ Qnil rt →
  director_instance rt rcv w = (Returned (mc_director_instance w), w).
Proof.
  intros Hc. unfold director_instance. run_monad. by case_decide.
Qed.

(** [shared] with no handle yet: one wrapper is made, retained and stored. *)
Lemma director_instance_first rcv w :
  mc_director_instance w = Qnil rt →
  director_instance rt rcv w =
  let obj := rb_cocos2d_object_new_result rt (trace w)
               (Director_getInstance rt) (rb_cDirector rt) in
  (Returned obj,
   World obj (director_using_scene w)
         (trace w ++ [ObjectNew (Director_getInstance rt) (rb_cDirector rt) obj;
                      Retain obj])).
Proof.
  intros Hc. unfold director_instance, rb_cocos2d_object_new, rb_retain.
  run_monad. case_decide; [|done]. run_monad.
  by rewrite <- app_assoc.
Qed.

(** A stateless method only adds to the history. *)
Lemma stateless_world rcv m w :
  stateless m = true →
  ∃ evs, (call rt rcv m w).2 =
         World (mc_director_instance w) (director_using_scene w)
               (trace w ++ evs).
Proof.
  destruct w as [inst l h].
  destruct m; try discriminate; intros _; simpl;
    unfold director_pause, director_resume, director_start_animation,
      director_stop_animation, director_origin, director_size,
      director_show_stats_set, director_show_stats,
      director_content_scale_factor, director_content_scale_factor_set,
      director_glview, query, forward, rb_cocos2d_object_new;
    run_monad;
    try (destruct (NUM2DBL rt value); simpl; [by exists []; rewrite app_nil_r|]);
    destruct (engine_raises rt _ _); simpl;
    try rewrite <- app_assoc; eauto.
Qed.

(** The vector after any call. *)
Lemma call_vector rcv m w :
  director_using_scene (call rt rcv m w).2 =
  slots_after m (director_using_scene w).
Proof.
  destruct (stateless m) eqn:Hs.
  { destruct (stateless_world rcv m w Hs) as [evs ->]. by destruct m. }
  destruct m; try discriminate; simpl.
  - destruct (decide (mc_director_instance w = Qnil rt)) as [Hc|Hc].
    + by rewrite director_instance_first.
    + by rewrite director_instance_cached.
  - rewrite director_run_eq.
    destruct (director_using_scene w); [done|].
    by rewrite forwarding_scene_world.
  - rewrite director_replace_eq.
    destruct (director_using_scene w) eqn:E; [done|].
    by rewrite forwarding_scene_world.
  - by rewrite director_push_eq, forwarding_scene_world.
  - destruct (director_using_scene w) as [|y l'] eqn:E using rev_ind.
    + by rewrite director_pop_nil.
    + rewrite (director_pop_snoc rcv w l' y E). simpl.
      by rewrite removelast_last.
  - by rewrite director_end_eq.
Qed.

(** The cached handle after any call: only [shared] writes it, and only
    while it is [nil]. *)
Lemma call_instance rcv m w :
  mc_director_instance w ≠ Qnil rt →
  mc_director_instance (call rt rcv m w).2 = mc_director_instance w.
Proof.
  intros Hc. destruct (stateless m) eqn:Hs.
  { by destruct (stateless_world rcv m w Hs) as [evs ->]. }
  destruct m; try discriminate; simpl.
  - by rewrite director_instance_cached.
  - rewrite director_run_eq.
    destruct (director_using_scene w); [done|].
    by rewrite forwarding_scene_world.
  - rewrite director_replace_eq.
    destruct (director_using_scene w) eqn:E; [done|].
    by rewrite forwarding_scene_world.
  - by rewrite director_push_eq, forwarding_scene_world.
  - destruct (director_using_scene w) as [|y l'] eqn:E using rev_ind.
    + by rewrite director_pop_nil.
    + by rewrite (director_pop_snoc rcv w l' y E).
  - by rewrite director_end_eq.
Qed.

Lemma held_replicate n : held (replicate n 0) = [].
Proof.
  unfold held. induction n as [|n IH]; [done|].
  simpl. rewrite filter_cons. by case_decide.
Qed.

Lemma releases_Release l : releases (Release <$> l) = l.
Proof.
  unfold releases. induction l as [|v l IH]; [done|].
  simpl. by f_equal.
Qed.

Lemma releases_app h1 h2 : releases (h1 ++ h2) = releases h1 ++ releases h2.
Proof. apply omap_app. Qed.

Lemma director_end_world rcv w :
  (director_end rt rcv w).2 =
  World (mc_director_instance w)
        (replicate (length (director_using_scene w)) 0)
        (trace w ++ (Release <$> held (director_using_scene w)) ++
                    [Engine (DIRECTOR rt rcv) engine_end]).
Proof.
  rewrite director_end_eq. unfold forwarding. simpl. by rewrite <- app_assoc.
Qed.

(** [pop] leaves the vector exactly when the vector is empty. *)
Lemma director_pop_bounds rcv w :
  (director_pop rt rcv w).1 = OutOfBounds ↔ director_using_scene w = [].
Proof.
  split.
  - destruct (director_using_scene w) as [|y l' _] eqn:E using rev_ind;
      [done|].
    rewrite (director_pop_snoc rcv w l' y E). intros Hb.
    by apply forwarding_bounds in Hb.
  - intros Hnil. by rewrite director_pop_nil.
Qed.

Lemma exec_cons rcv m ops w w' :
  exec rt rcv (m :: ops) w = Some w' →
  (call rt rcv m w).1 ≠ OutOfBounds ∧
  exec rt rcv ops (call rt rcv m w).2 = Some w'.
Proof.
  simpl. destruct (call rt rcv m w) as [[r|e|] w1]; simpl; by intros.
Qed.

Lemma exec_instance rcv ops : ∀ w w',
  mc_director_instance w ≠ Qnil rt →
  exec rt rcv ops w = Some w' →
  mc_director_instance w' = mc_director_instance w.
Proof.
  induction ops as [|m ops IH]; intros w w' Hc Hex.
  - by simplify_eq/=.
  - apply exec_cons in Hex as [_ Hex].
    pose proof (call_instance rcv m w Hc) as Hm.
    rewrite (IH _ _ (eq_ind_r (fun v => v ≠ Qnil rt) Hc Hm) Hex). done.
Qed.

Lemma pops_app ops1 ops2 : pops (ops1 ++ ops2) = (pops ops1 + pops ops2)%nat.
Proof.
  induction ops1 as [|a ops1 IH]; [done|].
  destruct a; simpl; lia.
Qed.

Lemma pushes_app ops1 ops2 :
  pushes (ops1 ++ ops2) = (pushes ops1 + pushes ops2)%nat.
Proof.
  induction ops1 as [|a ops1 IH]; [done|].
  destruct a; simpl; lia.
Qed.

Lemma slots_after_length m l :
  (m = pop → l ≠ []) →
  (length (slots_after m l) + pops [m] = length l + pushes [m])%nat.
Proof.
  intros Hpop. destruct m; simpl; rewrite ?length_insert, ?length_replicate,
    ?length_app; simpl; try lia.
  destruct l as [|y l _] using rev_ind; [by destruct Hpop|].
  rewrite removelast_last, length_app. simpl. lia.
Qed.

(** The length of the vector after a script that stayed inside it. *)
Lemma exec_length rcv ops : ∀ w w',
  exec rt rcv ops w = Some w' →
  (length (director_using_scene w') + pops ops =
   length (director_using_scene w) + pushes ops)%nat.
Proof.
  induction ops as [|m ops IH]; intros w w' Hex.
  - simplify_eq/=. lia.
  - apply exec_cons in Hex as [Hb Hex].
    apply IH in Hex. rewrite call_vector in Hex.
    assert (Hpop : m = pop → director_using_scene w ≠ []).
    { intros -> Hnil. apply Hb. by apply director_pop_bounds. }
    pose proof (slots_after_length m _ Hpop) as Hm.
    change (m :: ops) with ([m] ++ ops).
    rewrite pops_app, pushes_app. lia.
Qed.


(** *** The engine's stack along a history *)

Lemma native_stack_app h evs :
  native_stack (h ++ evs) =
  fold_left (fun stack c => engine_step c stack) (forwarded evs)
            (native_stack h).
Proof.
  unfold native_stack, forwarded. by rewrite omap_app, fold_left_app.
Qed.

Lemma stateless_stack rcv m w :
  stateless m = true →
  native_stack (trace (call rt rcv m w).2) = native_stack (trace w).
Proof.
  destruct w as [inst l h].
  destruct m; try discriminate; intros _; simpl;
    unfold director_pause, director_resume, director_start_animation,
      director_stop_animation, director_origin, director_size,
      director_show_stats_set, director_show_stats,
      director_content_scale_factor, director_content_scale_factor_set,
      director_glview, query, forward, rb_cocos2d_object_new;
    run_monad;
    try (destruct (NUM2DBL rt value); simpl; [done|]);
    destruct (engine_raises rt _ _); simpl;
    try rewrite <- app_assoc; by rewrite native_stack_app.
Qed.

Lemma held_app l1 l2 : held (l1 ++ l2) = held l1 ++ held l2.
Proof. apply filter_app. Qed.

Lemma held_cons v l : held (v :: l) = if decide (v ≠ 0) then v :: held l else held l.
Proof. unfold held. by rewrite filter_cons. Qed.

Lemma held_one v : v ≠ 0 → held [v] = [v].
Proof. intros Hv. rewrite held_cons. by case_decide. Qed.

(** A scene method that returns has coerced its argument and called the
    engine. *)
Lemma forwarding_scene_returned rcv obj c w r w' :
  forwarding_scene rt rcv obj c w = (Returned r, w') →
  ∃ scene, rb_any_to_scene rt obj = inr scene ∧
           w' = World (mc_director_instance w) (director_using_scene w)
                      (trace w ++ [Engine (DIRECTOR rt rcv) (c scene)]).
Proof.
  unfold forwarding_scene, forwarding.
  destruct (rb_any_to_scene rt obj) as [e|scene]; [done|].
  destruct (engine_raises rt _ _); [done|].
  intros [= _ <-]. eauto.
Qed.

(** One call in discipline keeps the list a mirror of the engine's stack. *)
Lemma mirrors_step rcv m w r :
  mirrors rt (director_using_scene w) (native_stack (trace w)) →
  in_discipline w m →
  (call rt rcv m w).1 = Returned r →
  mirrors rt (director_using_scene (call rt rcv m w).2)
             (native_stack (trace (call rt rcv m w).2)).
Proof.
  intros Hinv Hd Hret. destruct (stateless m) eqn:Hs.
  { rewrite stateless_stack by done.
    by destruct (stateless_world rcv m w Hs) as [evs ->]. }
  unfold mirrors in *.
  destruct m; try discriminate; simpl in *.
  - destruct (decide (mc_director_instance w = Qnil rt)) as [Hc|Hc].
    + rewrite director_instance_first by done. simpl.
      by rewrite native_stack_app.
    + by rewrite director_instance_cached.
  - destruct Hd as [Hscene Hheld]. rewrite director_run_eq in *.
    destruct (director_using_scene w) as [|x rest]; [done|].
    destruct (forwarding_scene _ _ _ _ _) as [o w'] eqn:E.
    simpl in Hret. subst o.
    apply forwarding_scene_returned in E as (p & Hp & ->). simpl.
    rewrite <- app_assoc, native_stack_app. simpl.
    rewrite Hheld in Hinv. apply Forall2_nil_inv_l in Hinv as ->.
    rewrite held_cons in Hheld. destruct (decide (x ≠ 0)); [done|].
    rewrite held_cons. destruct (decide (scene ≠ 0)); [|done].
    rewrite Hheld. simpl. by repeat constructor.
  - destruct Hd as [Hscene Hheld]. rewrite director_replace_eq in *.
    destruct (director_using_scene w) as [|x rest]; [done|].
    destruct (forwarding_scene _ _ _ _ _) as [o w'] eqn:E.
    simpl in Hret. subst o.
    apply forwarding_scene_returned in E as (p & Hp & ->). simpl in *.
    rewrite <- app_assoc, native_stack_app. simpl.
    rewrite held_cons in Hinv. rewrite Hheld in Hinv.
    rewrite held_cons. destruct (decide (scene ≠ 0)); [|done].
    rewrite Hheld.
    assert (removelast (native_stack (trace w)) = []) as ->.
    { destruct (decide (x ≠ 0)).
      - apply Forall2_cons_inv_l in Hinv as (? & ? & _ & Hnil & ->).
        by apply Forall2_nil_inv_l in Hnil as ->.
      - by apply Forall2_nil_inv_l in Hinv as ->. }
    simpl. by repeat constructor.
  - rewrite director_push_eq in *.
    destruct (forwarding_scene _ _ _ _ _) as [o w'] eqn:E.
    simpl in Hret. subst o.
    apply forwarding_scene_returned in E as (p & Hp & ->). simpl.
    rewrite <- app_assoc, native_stack_app. simpl.
    rewrite held_app, held_one by done.
    apply Forall2_app; [done|]. by repeat constructor.
  - destruct Hd as (x & Hlast & Hx).
    apply last_Some in Hlast as [l' Hl'].
    rewrite (director_pop_snoc rcv w l' x Hl') in *.
    unfold forwarding in *. simpl in *.
    rewrite <- app_assoc, native_stack_app. simpl.
    rewrite Hl', held_app, held_one in Hinv by done.
    apply Forall2_app_inv_l in Hinv as (st & top & Hst & Htop & ->).
    apply Forall2_cons_inv_l in Htop as (? & ? & _ & Hnil & ->).
    apply Forall2_nil_inv_l in Hnil as ->.
    by rewrite removelast_last.
  - rewrite director_end_world. simpl.
    rewrite held_replicate, app_assoc, native_stack_app. simpl.
    constructor.
Qed.

Lemma mirrors_exec rcv ops : ∀ w w',
  mirrors rt (director_using_scene w) (native_stack (trace w)) →
  disciplined rt rcv ops w →
  exec rt rcv ops w = Some w' →
  mirrors rt (director_using_scene w') (native_stack (trace w')).
Proof.
  induction ops as [|m ops IH]; intros w w' Hinv Hd Hex.
  - by simplify_eq/=.
  - destruct Hd as (Hm & [r Hr] & Hd).
    apply exec_cons in Hex as [_ Hex].
    eapply IH; [|done..]. by eapply mirrors_step.
Qed.



(** *** The calls made to the engine in the course of a call *)



End Effects.

(** ** push *)

(** C3: for every state of the retained-reference list, [push] with a scene
    appends exactly one retained reference, to that scene, at the end of the
    list; it releases no reference and every entry already in the list stays
    where it was.  The call never leaves the vector. *)
Theorem director_push_appends_retained (rt : runtime) (rcv obj : VALUE)
    (w : world) :
  let w' := (director_push rt rcv obj w).2 in
  director_using_scene w' = director_using_scene w ++ [obj] ∧
  trace w `prefix_of` trace w' ∧
  retains (events_of w w') = [obj] ∧
  releases (events_of w w') = [] ∧
  (director_push rt rcv obj w).1 ≠ OutOfBounds.
Proof.
  rewrite director_push_eq. unfold forwarding_scene, forwarding, events_of.
  destruct (rb_any_to_scene rt obj) as [e|scene]; simpl.
  - rewrite drop_app_length. repeat split; try done.
    by apply prefix_app_r.
  - rewrite <- app_assoc, drop_app_length. repeat split; try done.
    + by apply prefix_app_r.
    + by destruct (engine_raises rt _ _).
Qed.

(** ** run and replace *)

(** [run] on a vector whose slot 0 holds the reference 5: the new scene is
    retained and stored, the call is forwarded, and 5 is not released. *)
Lemma director_run_releases_nothing :
  let w := World 4 [5; 0; 0] [] in
  let w' := (director_run plain_runtime 1 9 w).2 in
  director_using_scene w !! O = Some 5 ∧
  director_using_scene w' = [9; 0; 0] ∧
  events_of w w' = [Retain 9; Engine 1 (runWithScene 9)] ∧
  releases (events_of w w') = [].
Proof. vm_compute. done. Qed.

(** C2, as amended: when slot 0 of the list holds a reference, [replace]
    first releases that reference, then retains the new scene and stores it
    in slot 0, and only then forwards to the engine; [run] retains the new
    scene and stores it in slot 0 before it forwards, and releases nothing.
    Neither changes another slot of the list. *)
Theorem root_slot_update (rt : runtime) (rcv obj old : VALUE) (w : world) :
  director_using_scene w !! O = Some old →
  let w1 := (director_replace rt rcv obj w).2 in
  let w2 := (director_run rt rcv obj w).2 in
  (events_of w w1 =
     Release old :: Retain obj :: forward_events rt rcv obj replaceScene ∧
   director_using_scene w1 = <[O:=obj]> (director_using_scene w)) ∧
  (events_of w w2 = Retain obj :: forward_events rt rcv obj runWithScene ∧
   director_using_scene w2 = <[O:=obj]> (director_using_scene w)).
Proof.
  intros Hold. simpl.
  rewrite director_replace_eq, director_run_eq.
  destruct (director_using_scene w) as [|x rest]; simplify_eq/=.
  rewrite !forwarding_scene_world. simpl.
  rewrite <- !app_assoc. simpl.
  by rewrite !events_of_app.
Qed.

Lemma root_slot_update_witness :
  let w := World 4 [5; 0; 0; 6] [] in
  events_of w (director_replace plain_runtime 1 9 w).2 =
    [Release 5; Retain 9; Engine 1 (replaceScene 9)] ∧
  director_using_scene (director_replace plain_runtime 1 9 w).2 = [9; 0; 0; 6].
Proof.
  exact (proj1 (root_slot_update plain_runtime 1 9 5
                  (World 4 [5; 0; 0; 6] []) eq_refl)).
Defined.

(** ** pop *)

(** C4: on a non-empty list, [pop] releases the reference in the last
    position, removes that entry, so that the list is shorter by exactly one
    and every other entry is where it was, and forwards [popScene] to the
    engine. *)
Theorem director_pop_releases_top (rt : runtime) (rcv x : VALUE)
    (l : list VALUE) (w : world) :
  director_using_scene w = l ++ [x] →
  let w' := (director_pop rt rcv w).2 in
  director_using_scene w' = l ∧
  S (length (director_using_scene w')) = length (director_using_scene w) ∧
  events_of w w' = [Release x; Engine (DIRECTOR rt rcv) popScene] ∧
  (director_pop rt rcv w).1 ≠ OutOfBounds.
Proof.
  intros Hl. simpl. rewrite (director_pop_snoc rt rcv w l x Hl).
  split_and!; simpl.
  - done.
  - rewrite Hl, length_app. simpl. lia.
  - by rewrite <- app_assoc, events_of_app.
  - by destruct (engine_raises rt _ _).
Qed.

Lemma director_pop_releases_top_witness :
  let w := World 4 [5; 0; 0; 6] [] in
  director_using_scene (director_pop strict_runtime 1 w).2 = [5; 0; 0] ∧
  events_of w (director_pop strict_runtime 1 w).2 =
    [Release 6; Engine 1 popScene].
Proof.
  pose proof (director_pop_releases_top strict_runtime 1 6 [5; 0; 0]
                (World 4 [5; 0; 0; 6] []) eq_refl) as (H1 & _ & H3 & _).
  exact (conj H1 H3).
Defined.

(** ** end *)

(** C10: [end] sets every entry it releases to 0 and passes over the
    entries that are 0 already, so that a second [end] right after the first
    leaves the list as the first left it and releases no reference. *)
Theorem director_end_twice (rt : runtime) (rcv : VALUE) (w : world) :
  let w1 := (director_end rt rcv w).2 in
  let w2 := (director_end rt rcv w1).2 in
  director_using_scene w1 = replicate (length (director_using_scene w)) 0 ∧
  releases (events_of w w1) = held (director_using_scene w) ∧
  director_using_scene w2 = director_using_scene w1 ∧
  releases (events_of w1 w2) = [].
Proof.
  simpl. rewrite !director_end_world. simpl.
  unfold events_of. simpl. rewrite !drop_app_length.
  rewrite length_replicate, held_replicate.
  rewrite releases_app, releases_Release. simpl.
  by rewrite app_nil_r.
Qed.

(** ** The shared accessor *)

(** C5: with no handle cached and a runtime whose new wrapper is not [nil],
    the first call of [shared] makes the wrapper, retains it once, caches it
    and returns it; after any script that follows, the cached handle is
    still that wrapper, and [shared] returns it again without making or
    retaining anything and without changing the world. *)
Theorem shared_handle_cached (rt : runtime) (rcv : VALUE) (w0 : world) :
  let obj := rb_cocos2d_object_new_result rt (trace w0)
               (Director_getInstance rt) (rb_cDirector rt) in
  let first := director_instance rt rcv w0 in
  mc_director_instance w0 = Qnil rt →
  obj ≠ Qnil rt →
  first.1 = Returned obj ∧
  events_of w0 first.2 =
    [ObjectNew (Director_getInstance rt) (rb_cDirector rt) obj; Retain obj] ∧
  ∀ (rcv' : VALUE) (ops : list method) (w : world),
    exec rt rcv' ops first.2 = Some w →
    mc_director_instance w = obj ∧
    director_instance rt rcv' w = (Returned obj, w).
Proof.
  intros obj first Hnil Hobj. subst first.
  rewrite (director_instance_first rt rcv w0 Hnil). fold obj. simpl.
  split_and!; [done|by rewrite events_of_app|].
  intros rcv' ops w Hex.
  apply exec_instance in Hex as Hinst; [|done]. simpl in Hinst.
  split; [done|].
  rewrite director_instance_cached; by rewrite Hinst.
Qed.

Lemma shared_handle_cached_witness :
  let w := World 8000 [0; 0; 0]
             [ObjectNew 64 100 8000; Retain 8000; Engine 1 engine_pause] in
  director_instance plain_runtime 1 w = (Returned 8000, w).
Proof.
  pose proof (shared_handle_cached plain_runtime 100
                (initial_world plain_runtime) eq_refl) as H.
  destruct H as (_ & _ & H); [vm_compute; discriminate|].
  refine (proj2 (H 1 [shared; pause] _ _)).
  vm_compute. reflexivity.
Defined.

(** ** The forwarding methods *)

(** C6: [pause], [resume], [start_animation], [stop_animation], [origin],
    [size], [show_stats=], [show_stats?], [content_scale_factor],
    [content_scale_factor=] and [glview] leave the binding's own state as it
    was: the retained list, entry by entry, and the cached handle. *)
Theorem forwarding_keeps_state (rt : runtime) (rcv : VALUE) (m : method)
    (w : world) :
  stateless m = true →
  binding_state (call rt rcv m w).2 = binding_state w.
Proof.
  intros Hs. by destruct (stateless_world rt rcv m w Hs) as [evs ->].
Qed.

Lemma forwarding_keeps_state_witness :
  binding_state
    (call plain_runtime 1 (set_content_scale_factor 6) (World 8 [5; 0; 0; 7] [])).2
  = (8, [5; 0; 0; 7]).
Proof.
  exact (forwarding_keeps_state plain_runtime 1 (set_content_scale_factor 6)
           (World 8 [5; 0; 0; 7] []) eq_refl).
Defined.

(** ** The slot array *)

(** C7: the vector starts with exactly three entries; [run] and [replace]
    write index 0 and nothing else, [push] appends at the end, [pop] removes
    at the end, and the vector gets longer by a call of [push] only. *)
Theorem slot_discipline (rt : runtime) (rcv : VALUE) (m : method) (w : world) :
  director_using_scene (initial_world rt) = [0; 0; 0] ∧
  director_using_scene (call rt rcv m w).2 =
    slots_after m (director_using_scene w) ∧
  length (director_using_scene (call rt rcv m w).2) =
    match m with
    | push _ => S (length (director_using_scene w))
    | pop => pred (length (director_using_scene w))
    | _ => length (director_using_scene w)
    end.
Proof.
  split; [done|]. rewrite call_vector. split; [done|].
  destruct m; simpl;
    rewrite ?length_insert, ?length_replicate, ?length_app; simpl; try lia.
  destruct (director_using_scene w) as [|y l _] using rev_ind; [done|].
  rewrite removelast_last, length_app. simpl. lia.
Qed.

(** ** The unchecked pop *)

(** Three pops from the initial state: the pops made do not exceed the 3
    initial entries plus the pushes made, and yet the list is empty and a
    further [pop] is outside the vector. *)
Lemma director_pop_bound_off_by_one :
  let ops := [pop; pop; pop] in
  let w := World 4 []
             [Release 0; Engine 1 popScene; Release 0; Engine 1 popScene;
              Release 0; Engine 1 popScene] in
  exec plain_runtime 1 ops (initial_world plain_runtime) = Some w ∧
  (pops ops ≤ 3 + pushes ops)%nat ∧
  director_using_scene w = [] ∧
  (director_pop plain_runtime 1 w).1 = OutOfBounds.
Proof. vm_compute. split_and!; (done || lia). Qed.

(** C9, as amended: [pop] takes [back()] and calls [pop_back()] with no
    check, so it is outside the vector exactly when the vector is empty.
    After a script run from the initial state the vector has 3 entries plus
    one per [push] less one per [pop]; so the list is not empty, and [pop] is
    safe, exactly when the pops made before are fewer than the 3 initial
    entries plus the pushes made before. *)
Theorem director_pop_safe_iff (rt : runtime) (rcv : VALUE) (ops : list method)
    (w : world) :
  exec rt rcv ops (initial_world rt) = Some w →
  ((director_pop rt rcv w).1 = OutOfBounds ↔ director_using_scene w = []) ∧
  (length (director_using_scene w) + pops ops = 3 + pushes ops)%nat ∧
  (director_using_scene w ≠ [] ↔ (pops ops < 3 + pushes ops)%nat) ∧
  ((director_pop rt rcv w).1 ≠ OutOfBounds ↔
   (pops ops < 3 + pushes ops)%nat).
Proof.
  intros Hex. apply exec_length in Hex. simpl in Hex.
  assert (Hne : director_using_scene w ≠ [] ↔
                (pops ops < 3 + pushes ops)%nat).
  { destruct (director_using_scene w); simpl in *; split; (done || lia). }
  split_and!.
  - apply director_pop_bounds.
  - done.
  - done.
  - by rewrite director_pop_bounds.
Qed.

Lemma director_pop_safe_iff_witness :
  let w := World 4 [0; 16]
             [Release 0; Engine 1 popScene; Release 0; Engine 1 popScene;
              Retain 16; Engine 1 (pushScene 16)] in
  (director_pop plain_runtime 1 w).1 ≠ OutOfBounds ↔
  (pops [pop; pop; push 16] < 3 + pushes [pop; pop; push 16])%nat.
Proof.
  refine (proj2 (proj2 (proj2 (director_pop_safe_iff plain_runtime 1
                   [pop; pop; push 16] _ _)))).
  vm_compute. reflexivity.
Defined.

(** ** Errors *)



(** ** The retained list and the engine's scene stack *)

(** After [run] the list has three entries while the engine runs one scene,
    and after [end] the list still has its three entries, all 0: it is not
    emptied. *)
Lemma retained_list_not_emptied :
  let w1 := (call plain_runtime 1 (run 16) (initial_world plain_runtime)).2 in
  let w2 := (call plain_runtime 1 end_ w1).2 in
  (director_using_scene w1 = [16; 0; 0] ∧ native_stack (trace w1) = [16]) ∧
  (director_using_scene w2 = [0; 0; 0] ∧ native_stack (trace w2) = []) ∧
  director_using_scene w2 ≠ [].
Proof. vm_compute. split_and!; done. Qed.

(** C1, as amended: for every script of calls that are in discipline and
    return, after every call the non-zero entries of the retained list are,
    in number and in order, the scenes of the engine's stack, while the list
    itself has 3 entries plus one per [push] less one per [pop]; and right
    after [end] the list has the length it had and holds 0 in every entry,
    with no scene left on the engine's stack. *)
Theorem retained_list_mirrors_engine (rt : runtime) (rcv : VALUE)
    (ops : list method) (w : world) :
  disciplined rt rcv ops (initial_world rt) →
  exec rt rcv ops (initial_world rt) = Some w →
  mirrors rt (director_using_scene w) (native_stack (trace w)) ∧
  length (held (director_using_scene w)) = length (native_stack (trace w)) ∧
  (length (director_using_scene w) + pops ops = 3 + pushes ops)%nat ∧
  director_using_scene (director_end rt rcv w).2 =
    replicate (length (director_using_scene w)) 0 ∧
  native_stack (trace (director_end rt rcv w).2) = [].
Proof.
  intros Hd Hex.
  assert (Hm : mirrors rt (director_using_scene w) (native_stack (trace w))).
  { eapply mirrors_exec; [|done..]. constructor. }
  split_and!.
  - done.
  - by eapply Forall2_length.
  - by apply exec_length in Hex.
  - by rewrite director_end_world.
  - rewrite director_end_world. simpl.
    by rewrite app_assoc, native_stack_app.
Qed.

Lemma retained_list_mirrors_engine_witness :
  let w := World 4 [32; 0; 0; 40]
             [Retain 16; Engine 1 (runWithScene 16);
              Retain 24; Engine 1 (pushScene 24);
              Release 24; Engine 1 popScene;
              Release 16; Retain 32; Engine 1 (replaceScene 32);
              Retain 40; Engine 1 (pushScene 40)] in
  mirrors plain_runtime (director_using_scene w) (native_stack (trace w)) ∧
  native_stack (trace w) = [32; 40].
Proof.
  split; [|by vm_compute].
  refine (proj1 (retained_list_mirrors_engine plain_runtime 1
                   [run 16; push 24; pop; replace 32; push 40] _ _ _)).
  - vm_compute. repeat first [split | eexists]; try reflexivity.
    all: by intro.
  - vm_compute. reflexivity.
Defined.

(** * Further properties of the binding *)

Section Footprint.

Variable rt : runtime.
Implicit Types (w : world) (rcv obj v : VALUE) (l : list VALUE).

Lemma retains_app h1 h2 : retains (h1 ++ h2) = retains h1 ++ retains h2.
Proof. apply omap_app. Qed.

Lemma retains_Release l : retains (Release <$> l) = [].
Proof. unfold retains. by induction l. Qed.

Lemma forward_events_refs rcv obj c :
  retains (forward_events rt rcv obj c) = [] ∧
  releases (forward_events rt rcv obj c) = [].
Proof. unfold forward_events. by destruct (rb_any_to_scene rt obj). Qed.

(** A stateless method adds events that are neither retains nor releases,
    and it stays inside the vector. *)
Lemma stateless_quiet rcv m w :
  stateless m = true →
  (call rt rcv m w).1 ≠ OutOfBounds ∧
  ∃ evs, (call rt rcv m w).2 =
           World (mc_director_instance w) (director_using_scene w)
                 (trace w ++ evs) ∧
         retains evs = [] ∧ releases evs = [].
Proof.
  destruct w as [inst l h].
  destruct m; try discriminate; intros _; simpl;
    unfold director_pause, director_resume, director_start_animation,
      director_stop_animation, director_origin, director_size,
      director_show_stats_set, director_show_stats,
      director_content_scale_factor, director_content_scale_factor_set,
      director_glview, query, forward, rb_cocos2d_object_new;
    run_monad;
    try (destruct (NUM2DBL rt value); simpl;
         [split; [done|]; exists []; by rewrite app_nil_r|]);
    destruct (engine_raises rt _ _); simpl;
    rewrite <- ?app_assoc; (split; [done|]); eexists; split_and!;
    reflexivity.
Qed.

(** The events of any call, with the references they retain and release. *)
Lemma call_footprint rcv m w :
  ∃ evs, trace (call rt rcv m w).2 = trace w ++ evs ∧
    retains evs =
      match m with
      | run scene | push scene => [scene]
      | replace scene =>
          match director_using_scene w with [] => [] | _ => [scene] end
      | shared =>
          if decide (mc_director_instance w = Qnil rt)
          then [mc_director_instance (call rt rcv m w).2] else []
      | _ => []
      end ∧
    releases evs =
      match m with
      | replace _ => take 1 (director_using_scene w)
      | pop => option_list (last (director_using_scene w))
      | end_ => held (director_using_scene w)
      | _ => []
      end.
Proof.
  destruct (stateless m) eqn:Hs.
  { destruct (stateless_quiet rcv m w Hs) as (_ & evs & -> & Hr & Hl).
    exists evs. by destruct m. }
  destruct m; try discriminate; simpl.
  - destruct (decide (mc_director_instance w = Qnil rt)) as [Hc|Hc].
    + rewrite director_instance_first by done. simpl. eauto.
    + rewrite director_instance_cached by done. exists [].
      by rewrite app_nil_r.
  - rewrite director_run_eq.
    destruct (director_using_scene w); simpl; [eauto|].
    rewrite forwarding_scene_world. simpl. rewrite <- app_assoc.
    eexists. split; [done|]. simpl.
    by destruct (forward_events_refs rcv scene runWithScene) as [-> ->].
  - rewrite director_replace_eq.
    destruct (director_using_scene w); simpl.
    + exists []. by rewrite app_nil_r.
    + rewrite forwarding_scene_world. simpl. rewrite <- app_assoc.
      eexists. split; [done|]. simpl.
      by destruct (forward_events_refs rcv scene replaceScene) as [-> ->].
  - rewrite director_push_eq, forwarding_scene_world. simpl.
    rewrite <- app_assoc. eexists. split; [done|]. simpl.
    by destruct (forward_events_refs rcv scene pushScene) as [-> ->].
  - destruct (director_using_scene w) as [|y l' _] eqn:E using rev_ind.
    + rewrite director_pop_nil by done. exists []. by rewrite app_nil_r.
    + rewrite (director_pop_snoc rt rcv w l' y E). simpl.
      rewrite <- app_assoc, last_snoc. eauto.
  - rewrite director_end_world. simpl. eexists. split; [done|].
    rewrite retains_app, releases_app, retains_Release, releases_Release.
    simpl. by rewrite app_nil_r.
Qed.

Lemma call_events rcv m w :
  trace (call rt rcv m w).2 = trace w ++ events_of w (call rt rcv m w).2.
Proof.
  destruct (call_footprint rcv m w) as (evs & Ht & _).
  unfold events_of. by rewrite Ht, drop_app_length.
Qed.

Lemma call_events_footprint rcv m w evs :
  trace (call rt rcv m w).2 = trace w ++ evs →
  events_of w (call rt rcv m w).2 = evs.
Proof. intros Ht. unfold events_of. by rewrite Ht, drop_app_length. Qed.

(** A call is outside the vector exactly when an unchecked method meets an
    empty vector. *)
Lemma call_inside rcv m w :
  (call rt rcv m w).1 = OutOfBounds ↔
  unchecked m = true ∧ director_using_scene w = [].
Proof.
  destruct (stateless m) eqn:Hs.
  { destruct (stateless_quiet rcv m w Hs) as [Hin _].
    split; [done|]. intros [Hu _]. by destruct m. }
  assert (Hfs : ∀ obj c w0, (forwarding_scene rt rcv obj c w0).1 ≠ OutOfBounds).
  { intros obj c w0. unfold forwarding_scene, forwarding.
    destruct (rb_any_to_scene rt obj); simpl; [done|].
    by destruct (engine_raises rt _ _). }
  destruct m; try discriminate; simpl.
  - destruct (decide (mc_director_instance w = Qnil rt)) as [Hc|Hc].
    + rewrite director_instance_first by done. simpl. by split; [|intros []].
    + rewrite director_instance_cached by done. simpl. by split; [|intros []].
  - rewrite director_run_eq.
    destruct (director_using_scene w); simpl; [done|].
    split; [by intros ?%Hfs|by intros []].
  - rewrite director_replace_eq.
    destruct (director_using_scene w); simpl; [done|].
    split; [by intros ?%Hfs|by intros []].
  - rewrite director_push_eq. split; [by intros ?%Hfs|by intros []].
  - rewrite director_pop_bounds. by split; [|intros []].
  - rewrite director_end_eq. split; [by intros ?%forwarding_bounds|by intros []].
Qed.

Lemma call_length rcv m w :
  length (director_using_scene (call rt rcv m w).2) =
  length_after m (length (director_using_scene w)).
Proof.
  rewrite call_vector.
  destruct m; simpl;
    rewrite ?length_insert, ?length_replicate, ?length_app; simpl; try lia.
  destruct (director_using_scene w) as [|y l _] using rev_ind; [done|].
  rewrite removelast_last, length_app. simpl. lia.
Qed.

(** No method but [shared] writes the cached handle. *)
Lemma call_instance_other rcv m w :
  m ≠ shared →
  mc_director_instance (call rt rcv m w).2 = mc_director_instance w.
Proof.
  intros Hm. destruct (stateless m) eqn:Hs.
  { by destruct (stateless_world rt rcv m w Hs) as [evs ->]. }
  destruct m; try discriminate; simpl; [done|..].
  - rewrite director_run_eq.
    destruct (director_using_scene w); [done|].
    by rewrite forwarding_scene_world.
  - rewrite director_replace_eq.
    destruct (director_using_scene w) eqn:E; [done|].
    by rewrite forwarding_scene_world.
  - by rewrite director_push_eq, forwarding_scene_world.
  - destruct (director_using_scene w) as [|y l' _] eqn:E using rev_ind.
    + by rewrite director_pop_nil.
    + by rewrite (director_pop_snoc rt rcv w l' y E).
  - by rewrite director_end_eq.
Qed.

Lemma stays_inside_exec rcv ops : ∀ w,
  is_Some (exec rt rcv ops w) ↔
  stays_inside (length (director_using_scene w)) ops = true.
Proof.
  induction ops as [|m ops IH]; intros w; simpl.
  { split; [done|by eexists]. }
  pose proof (call_inside rcv m w) as Hin.
  pose proof (call_length rcv m w) as Hlen.
  rewrite <- Hlen, andb_true_iff, <- IH, negb_true_iff, andb_false_iff.
  rewrite Nat.eqb_neq, length_zero_iff_nil.
  destruct (call rt rcv m w) as [[r|e|] w1]; simpl in *.
  - split; [|by intros []]. intros Hs. split; [|done].
    destruct (unchecked m) eqn:Hu; [right|by left].
    intros Hnil. by pose proof (proj2 Hin (conj eq_refl Hnil)).
  - split; [|by intros []]. intros Hs. split; [|done].
    destruct (unchecked m) eqn:Hu; [right|by left].
    intros Hnil. by pose proof (proj2 Hin (conj eq_refl Hnil)).
  - destruct (proj1 Hin eq_refl) as [Hu Hnil]. split.
    + by intros [? ?].
    + intros [[Hf|Hne] _]; [congruence|done].
Qed.

(** *** The references in the list have been retained *)

Lemma held_subseteq l : held l ⊆ l.
Proof. intros v [_ Hv]%list_elem_of_filter. done. Qed.

Lemma held_were_retained_step rcv m w :
  held (director_using_scene w) ⊆ retains (trace w) →
  held (director_using_scene (call rt rcv m w).2) ⊆
    retains (trace (call rt rcv m w).2).
Proof.
  intros Hinv.
  destruct (call_footprint rcv m w) as (evs & -> & Hr & _).
  rewrite call_vector, retains_app, Hr. clear Hr.
  intros v [Hv Hin]%list_elem_of_filter.
  assert (Hold : v ∈ director_using_scene w → v ∈ retains (trace w)).
  { intros ?. apply Hinv. by apply list_elem_of_filter. }
  apply elem_of_app.
  destruct m; simpl in *; try (by left; apply Hold).
  - destruct (director_using_scene w) as [|x rest]; simpl in *.
    + by apply elem_of_nil in Hin.
    + apply elem_of_cons in Hin as [->|Hin]; [right; by left|].
      left. apply Hold. by right.
  - destruct (director_using_scene w) as [|x rest]; simpl in *.
    + by apply elem_of_nil in Hin.
    + apply elem_of_cons in Hin as [->|Hin]; [right; by left|].
      left. apply Hold. by right.
  - apply elem_of_app in Hin as [Hin|Hin%list_elem_of_singleton].
    + left. by apply Hold.
    + subst. right. by left.
  - left. apply Hold.
    destruct (director_using_scene w) as [|y l' _] using rev_ind; [done|].
    rewrite removelast_last in Hin. apply elem_of_app. by left.
  - by apply elem_of_replicate in Hin as [-> _].
Qed.

(** *** Retains and releases in balance *)

Lemma held_cons_app v l : held (v :: l) = held [v] ++ held l.
Proof. by rewrite <- held_app. Qed.

Lemma balanced_step rcv m w :
  (∀ h, rb_cocos2d_object_new_result rt h (Director_getInstance rt)
          (rb_cDirector rt) ≠ Qnil rt) →
  match m with
  | run _ => director_using_scene w !! O = Some 0
  | _ => True
  end →
  balanced rt w → balanced rt (call rt rcv m w).2.
Proof.
  intros Hnew Hrun Hbal. unfold balanced in *.
  destruct (call_footprint rcv m w) as (evs & -> & Hr & Hl).
  rewrite call_vector, retains_app, releases_app, !held_app, Hr, Hl, Hbal.
  clear Hr Hl Hbal.
  assert (m = shared ∨ m ≠ shared) as [->|Hm]
    by (destruct m; (by left) || (by right)).
  - simpl. unfold cached_handle.
    destruct (decide (mc_director_instance w = Qnil rt)) as [Hc|Hc].
    + rewrite director_instance_first by done. simpl.
      rewrite decide_False by apply Hnew. simpl. solve_Permutation.
    + rewrite director_instance_cached by done.
      rewrite decide_False by done. simpl. solve_Permutation.
  - unfold cached_handle. rewrite (call_instance_other rcv m w Hm).
    assert (Hnil : held [] = []) by done.
    destruct m; simpl; rewrite ?Hnil; try done; try solve_Permutation.
    + destruct (director_using_scene w) as [|x rest]; simplify_eq/=.
      rewrite (held_cons_app scene rest), (held_cons_app 0 rest).
      replace (held [0]) with (@nil Z) by done. solve_Permutation.
    + destruct (director_using_scene w) as [|x rest]; simpl; rewrite ?Hnil.
      * solve_Permutation.
      * rewrite (held_cons_app scene rest), (held_cons_app x rest).
        solve_Permutation.
    + rewrite held_app. solve_Permutation.
    + destruct (director_using_scene w) as [|y l' _] using rev_ind; simpl;
        rewrite ?Hnil.
      * solve_Permutation.
      * rewrite last_snoc, removelast_last, held_app. simpl.
        solve_Permutation.
    + rewrite held_replicate.
      assert (Hh : ∀ l, held (held l) = held l).
      { intros l. unfold held. induction l as [|v l IH]; [done|].
        rewrite filter_cons. case_decide; [|done].
        rewrite filter_cons. case_decide; [|done]. by rewrite IH. }
      rewrite Hh. solve_Permutation.
Qed.

Lemma balanced_exec rcv ops : ∀ w w',
  (∀ h, rb_cocos2d_object_new_result rt h (Director_getInstance rt)
          (rb_cDirector rt) ≠ Qnil rt) →
  run_on_free_slot rt rcv ops w →
  balanced rt w →
  exec rt rcv ops w = Some w' →
  balanced rt w'.
Proof.
  induction ops as [|m ops IH]; intros w w' Hnew Hfree Hbal Hex.
  - by simplify_eq/=.
  - destruct Hfree as [Hm Hfree]. apply exec_cons in Hex as [_ Hex].
    eapply IH; [done|done| |done]. by apply balanced_step.
Qed.

End Footprint.

(** ** Arguments the native layer refuses *)

(** X1: [push] retains its argument and appends it before the argument is
    coerced to a scene.  When the coercion raises, the exception leaves
    [push] with the reference retained and appended, nothing released, and
    the engine not called. *)
Theorem push_refused_keeps_entry (rt : runtime) (rcv obj : VALUE) (e : exn)
    (w : world) :
  rb_any_to_scene rt obj = inl e →
  let w' := (director_push rt rcv obj w).2 in
  (director_push rt rcv obj w).1 = Raised e ∧
  director_using_scene w' = director_using_scene w ++ [obj] ∧
  events_of w w' = [Retain obj] ∧
  forwarded (events_of w w') = [].
Proof.
  intros Hc. simpl. rewrite director_push_eq. unfold forwarding_scene.
  rewrite Hc. simpl. by rewrite events_of_app.
Qed.

Lemma push_refused_keeps_entry_witness :
  let w := World 4 [16; 0; 0] [] in
  (director_push strict_runtime 1 5 w).1 = Raised 7002 ∧
  director_using_scene (director_push strict_runtime 1 5 w).2 = [16; 0; 0; 5].
Proof.
  pose proof (push_refused_keeps_entry strict_runtime 1 5 7002
                (World 4 [16; 0; 0] []) eq_refl) as (H1 & H2 & _).
  exact (conj H1 H2).
Defined.

(** X2: [replace] and [run] update slot 0 before the argument is coerced.
    When the coercion raises, [replace] has already released the reference
    in slot 0 and stored the refused value in its place, and [run] has
    stored the refused value over slot 0; the engine is not called, so the
    scene it runs is no longer held by the list. *)
Theorem root_refused_after_update (rt : runtime) (rcv obj old : VALUE)
    (rest : list VALUE) (e : exn) (w : world) :
  rb_any_to_scene rt obj = inl e →
  director_using_scene w = old :: rest →
  director_replace rt rcv obj w =
    (Raised e, World (mc_director_instance w) (obj :: rest)
                     (trace w ++ [Release old; Retain obj])) ∧
  director_run rt rcv obj w =
    (Raised e, World (mc_director_instance w) (obj :: rest)
                     (trace w ++ [Retain obj])).
Proof.
  intros Hc Hl. rewrite director_replace_eq, director_run_eq, Hl.
  unfold forwarding_scene. by rewrite Hc.
Qed.

Lemma root_refused_after_update_witness :
  director_replace strict_runtime 1 5 (World 4 [16; 0; 0] []) =
    (Raised 7002, World 4 [5; 0; 0] [Release 16; Retain 5]).
Proof.
  exact (proj1 (root_refused_after_update strict_runtime 1 5 16 [0; 0] 7002
                  (World 4 [16; 0; 0] []) eq_refl eq_refl)).
Defined.

(** X3: [content_scale_factor=] converts its argument first.  When the
    conversion raises, the exception leaves the method with the world
    untouched: the engine is not called and nothing is logged. *)
Theorem scale_refused_untouched (rt : runtime) (rcv scale : VALUE) (e : exn)
    (w : world) :
  NUM2DBL rt scale = inl e →
  call rt rcv (set_content_scale_factor scale) w = (Raised e, w).
Proof.
  intros Hn. simpl. unfold director_content_scale_factor_set.
  run_monad. by rewrite Hn.
Qed.

Lemma scale_refused_untouched_witness :
  call strict_runtime 1 (set_content_scale_factor 4) (World 8 [16; 0; 0] [])
  = (Raised 7001, World 8 [16; 0; 0] []).
Proof.
  exact (scale_refused_untouched strict_runtime 1 4 7001
           (World 8 [16; 0; 0] []) eq_refl).
Defined.

(** ** push and pop together *)

(** X4: [pop] right after [push] is inside the vector and gives back the
    list as it was before the [push]; between them the two calls retain the
    pushed reference once and release it once, whatever the coercion and the
    engine do. *)
Theorem push_pop_restores (rt : runtime) (rcv obj : VALUE) (w : world) :
  let w1 := (director_push rt rcv obj w).2 in
  let w2 := (director_pop rt rcv w1).2 in
  (director_pop rt rcv w1).1 ≠ OutOfBounds ∧
  director_using_scene w2 = director_using_scene w ∧
  mc_director_instance w2 = mc_director_instance w ∧
  retains (events_of w w2) = [obj] ∧
  releases (events_of w w2) = [obj].
Proof.
  simpl. rewrite director_push_eq, forwarding_scene_world. simpl.
  rewrite (director_pop_snoc rt rcv (World _ _ _)
             (director_using_scene w) obj eq_refl).
  unfold forwarding. simpl. split_and!; try done.
  - by destruct (engine_raises rt _ _).
  - unfold events_of. simpl. rewrite <- !app_assoc, drop_app_length.
    rewrite !retains_app. simpl.
    by destruct (forward_events_refs rt rcv obj pushScene) as [-> _].
  - unfold events_of. simpl. rewrite <- !app_assoc, drop_app_length.
    rewrite !releases_app. simpl.
    by destruct (forward_events_refs rt rcv obj pushScene) as [_ ->].
Qed.

(** ** What the list holds *)

(** X5: after any script run from the initial state, every non-zero entry
    of the list is a reference that [rb_retain] was called on. *)
Theorem held_were_retained (rt : runtime) (rcv : VALUE) (ops : list method)
    (w : world) :
  exec rt rcv ops (initial_world rt) = Some w →
  held (director_using_scene w) ⊆ retains (trace w).
Proof.
  assert (Hgen : ∀ w0, held (director_using_scene w0) ⊆ retains (trace w0) →
                       exec rt rcv ops w0 = Some w →
                       held (director_using_scene w) ⊆ retains (trace w)).
  { induction ops as [|m ops IH]; intros w0 Hinv Hex.
    - by simplify_eq/=.
    - apply exec_cons in Hex as [_ Hex].
      eapply IH; [|done]. by apply held_were_retained_step. }
  apply Hgen. by intros v ?%elem_of_nil.
Qed.

Lemma held_were_retained_witness :
  let w := World 4 [32; 0; 0; 24]
             [Retain 16; Engine 1 (runWithScene 16);
              Retain 24; Engine 1 (pushScene 24);
              Release 16; Retain 32; Engine 1 (replaceScene 32)] in
  held (director_using_scene w) ⊆ retains (trace w).
Proof.
  refine (held_were_retained plain_runtime 1
            [run 16; push 24; replace 32] _ _).
  vm_compute. reflexivity.
Defined.

(** X6: whatever a call releases was an entry of the list when the call
    was made: no method releases a reference the list does not hold. *)
Theorem releases_only_held (rt : runtime) (rcv : VALUE) (m : method)
    (w : world) :
  releases (events_of w (call rt rcv m w).2) ⊆ director_using_scene w.
Proof.
  destruct (call_footprint rt rcv m w) as (evs & Ht & _ & Hl).
  rewrite (call_events_footprint rt rcv m w evs Ht), Hl.
  destruct m; try (by intros v ?%elem_of_nil).
  - destruct (director_using_scene w); [done|].
    simpl. intros v ->%list_elem_of_singleton. by left.
  - destruct (last (director_using_scene w)) as [x|] eqn:El; simpl.
    + intros v ->%list_elem_of_singleton. by eapply last_Some_elem_of.
    + by intros v ?%elem_of_nil.
  - apply held_subseteq.
Qed.

(** X8: only [shared], [run], [replace] and [push] ever retain a
    reference, and only [replace], [pop] and [end] ever release one: a call
    of any other method leaves every reference count as it was. *)
Theorem retain_release_footprint (rt : runtime) (rcv : VALUE) (m : method)
    (w : world) :
  (if may_retain m then True
   else retains (events_of w (call rt rcv m w).2) = []) ∧
  (if may_release m then True
   else releases (events_of w (call rt rcv m w).2) = []).
Proof.
  destruct (call_footprint rt rcv m w) as (evs & Ht & Hr & Hl).
  rewrite (call_events_footprint rt rcv m w evs Ht), Hr, Hl.
  by destruct m.
Qed.

(** ** What the methods return *)

(** X7: a scene method or a run-loop method that returns, returns its
    receiver, so that calls can be chained; the two setters return the value
    they were given; [show_stats?] returns [true] or [false]; and [shared]
    returns the handle that is cached when it returns. *)
Theorem returned_values (rt : runtime) (rcv r : VALUE) (m : method)
    (w : world) :
  (call rt rcv m w).1 = Returned r →
  match m with
  | run _ | replace _ | push _ | pop | end_
  | pause | resume | start_animation | stop_animation => r = rcv
  | show_stats_set value | set_content_scale_factor value => r = value
  | show_stats => r = Qtrue rt ∨ r = Qfalse rt
  | shared => r = mc_director_instance (call rt rcv m w).2
  | origin | size | get_content_scale_factor | glview => True
  end.
Proof.
  destruct m; simpl call; try done.
  - destruct (decide (mc_director_instance w = Qnil rt)) as [Hc|Hc].
    + rewrite director_instance_first by done. simpl. congruence.
    + rewrite director_instance_cached by done. simpl. congruence.
  - rewrite director_run_eq.
    destruct (director_using_scene w); [done|].
    unfold forwarding_scene, forwarding.
    destruct (rb_any_to_scene rt scene); simpl; [done|].
    destruct (engine_raises rt _ _); simpl; congruence.
  - rewrite director_replace_eq.
    destruct (director_using_scene w); [done|].
    unfold forwarding_scene, forwarding.
    destruct (rb_any_to_scene rt scene); simpl; [done|].
    destruct (engine_raises rt _ _); simpl; congruence.
  - rewrite director_push_eq. unfold forwarding_scene, forwarding.
    destruct (rb_any_to_scene rt scene); simpl; [done|].
    destruct (engine_raises rt _ _); simpl; congruence.
  - destruct (director_using_scene w) as [|y l' _] eqn:E using rev_ind.
    + by rewrite director_pop_nil.
    + rewrite (director_pop_snoc rt rcv w l' y E). unfold forwarding. simpl.
      destruct (engine_raises rt _ _); congruence.
  - rewrite director_end_eq. unfold forwarding. simpl.
    destruct (engine_raises rt _ _); congruence.
  - unfold director_pause. rewrite forward_ret_eq. simpl.
    destruct (engine_raises rt _ _); congruence.
  - unfold director_resume. rewrite forward_ret_eq. simpl.
    destruct (engine_raises rt _ _); congruence.
  - unfold director_start_animation. rewrite forward_ret_eq. simpl.
    destruct (engine_raises rt _ _); congruence.
  - unfold director_stop_animation. rewrite forward_ret_eq. simpl.
    destruct (engine_raises rt _ _); congruence.
  - unfold director_show_stats_set. rewrite forward_ret_eq. simpl.
    destruct (engine_raises rt _ _); congruence.
  - unfold director_show_stats, query, forward. run_monad.
    destruct (engine_raises rt _ _); simpl; [done|].
    intros [= <-]. destruct (display_stats rt (trace w)); [by left|by right].
  - unfold director_content_scale_factor_set, forward. run_monad.
    destruct (NUM2DBL rt value); simpl; [done|].
    destruct (engine_raises rt _ _); simpl; congruence.
Qed.

Lemma returned_values_witness :
  let w := initial_world plain_runtime in
  (call plain_runtime 100 shared w).1 = Returned 8000 ∧
  8000 = mc_director_instance (call plain_runtime 100 shared w).2.
Proof.
  split; [by vm_compute|].
  apply (returned_values plain_runtime 100 8000 shared
           (initial_world plain_runtime)).
  by vm_compute.
Defined.

(** ** Scripts that stay inside the vector *)

(** X9: whether a script runs into an unchecked access is decided by the
    length of the vector it starts from and the names of the methods it
    calls, in order: neither the scenes passed nor anything the engine or
    the native layer does or raises has a part in it. *)
Theorem script_safety (rt : runtime) (rcv : VALUE) (ops : list method)
    (w : world) :
  is_Some (exec rt rcv ops w) ↔
  stays_inside (length (director_using_scene w)) ops = true.
Proof. apply stays_inside_exec. Qed.

(** ** Retains and releases in balance *)

(** X10: in a runtime whose new Director wrapper is never [nil], after any
    script run from the initial state that calls [run] only while slot 0
    holds 0, the non-zero references retained so far are exactly, counted
    with multiplicity, the ones released so far, the ones in the list and
    the cached handle.  After [end] on top of such a script every scene
    reference retained has been released, and only the handle is kept. *)
Theorem retained_balance (rt : runtime) (rcv : VALUE) (ops : list method)
    (w : world) :
  (∀ h, rb_cocos2d_object_new_result rt h (Director_getInstance rt)
          (rb_cDirector rt) ≠ Qnil rt) →
  run_on_free_slot rt rcv ops (initial_world rt) →
  exec rt rcv ops (initial_world rt) = Some w →
  balanced rt w ∧
  let w' := (director_end rt rcv w).2 in
  held (retains (trace w')) ≡ₚ
  held (releases (trace w')) ++ held (cached_handle rt w').
Proof.
  intros Hnew Hfree Hex.
  assert (Hbal : balanced rt w).
  { eapply balanced_exec; [done..| |done].
    unfold balanced, cached_handle. simpl. by rewrite decide_True. }
  split; [done|].
  pose proof (balanced_step rt rcv end_ w Hnew I Hbal) as Hend.
  unfold balanced in Hend. simpl in *. rewrite Hend.
  rewrite director_end_world. simpl. rewrite held_replicate. done.
Qed.

Lemma retained_balance_witness :
  let w := World 8000 [32; 0; 0]
             [ObjectNew 64 100 8000; Retain 8000;
              Retain 16; Engine 1 (runWithScene 16);
              Retain 24; Engine 1 (pushScene 24);
              Release 24; Engine 1 popScene;
              Release 16; Retain 32; Engine 1 (replaceScene 32)] in
  balanced plain_runtime w.
Proof.
  refine (proj1 (retained_balance plain_runtime 1
                   [shared; run 16; push 24; pop; replace 32] _ _ _ _)).
  - intros h. simpl. lia.
  - vm_compute. by repeat split.
  - vm_compute. reflexivity.
Defined.
